(** * tohex.py: packing the red channel of a raw RGB image into 64-bit words

    The script reads [image.data], keeps one bit per pixel (red channel equal
    to 255), packs the bits least-significant first into 64-bit words and
    writes the words to [data.txt] as [0x%016X] literals separated by
    a comma and a space.

    The embedding keeps the script's shape: the file operations live in a
    small state-and-exception monad over a [world] (the two files, the open
    handles and a plan of I/O failures), the local variables [comma],
    [numBits] and [bits] are threaded through the [for] loop as a record. *)

From Stdlib Require Import ZArith List String Ascii Bool Lia.
From Stdlib Require Import Strings.Byte.
Import ListNotations.

Local Open Scope string_scope.
Local Open Scope Z_scope.

(** ** The Python runtime pieces the script relies on *)

Module Py.

Inductive exn : Type :=
| OSError      (* a failed open, read or write *)
| IndexError   (* subscript out of range *)
| ValueError.  (* negative shift count, I/O on a closed file *)

Inductive result (A : Type) : Type :=
| Ok (a : A)
| Raise (e : exn).
Arguments Ok {A} a.
Arguments Raise {A} e.

(** The two file objects of the script, named after its variables. *)
Inductive handle : Type := RawImage | HexList.

Definition handle_eqb (h1 h2 : handle) : bool :=
  match h1, h2 with
  | RawImage, RawImage | HexList, HexList => true
  | _, _ => false
  end.

(** Which I/O operations fail in a run: opening or reading the input,
    creating the output, and the [k]-th call of [write] (from 0). *)
Record faults : Type := mkFaults {
  open_image_fails : bool;
  read_fails : bool;
  open_txt_fails : bool;
  write_fails : nat -> bool
}.

Definition quiet : faults :=
  {| open_image_fails := false; read_fails := false;
     open_txt_fails := false; write_fails := fun _ => false |}.

Record world : Type := mkWorld {
  image_data : list byte;    (* contents of 'image.data' *)
  data_txt : string;         (* contents of 'data.txt' *)
  open_files : list handle;  (* file objects opened and not yet closed *)
  writes : nat;              (* calls of write so far *)
  plan : faults
}.

(** Computations: a world in, a value or an uncaught exception and the
    world at that point out. *)
Definition M (A : Type) : Type := world -> result A * world.

Definition ret {A} (a : A) : M A := fun w => (Ok a, w).

Definition raise {A} (e : exn) : M A := fun w => (Raise e, w).

Definition bind {A B} (m : M A) (k : A -> M B) : M B :=
  fun w =>
    match m w with
    | (Ok a, w') => k a w'
    | (Raise e, w') => (Raise e, w')
    end.

Definition is_open (h : handle) (w : world) : bool :=
  existsb (handle_eqb h) (open_files w).

Definition set_open (hs : list handle) (w : world) : world :=
  {| image_data := image_data w; data_txt := data_txt w;
     open_files := hs; writes := writes w; plan := plan w |}.

(** [open('image.data', 'rb')] *)
Definition open_rb : M handle :=
  fun w =>
    if open_image_fails (plan w) then (Raise OSError, w)
    else (Ok RawImage, set_open (RawImage :: open_files w) w).

(** [f.read()] on the binary input. *)
Definition read (h : handle) : M (list byte) :=
  fun w =>
    if negb (is_open h w) then (Raise ValueError, w)
    else if read_fails (plan w) then (Raise OSError, w)
    else (Ok (image_data w), w).

(** [f.close()] *)
Definition close (h : handle) : M unit :=
  fun w =>
    (Ok tt, set_open (filter (fun h' => negb (handle_eqb h h')) (open_files w)) w).

(** [open('data.txt', 'w')]: creates or truncates the file. *)
Definition open_w : M handle :=
  fun w =>
    if open_txt_fails (plan w) then (Raise OSError, w)
    else (Ok HexList,
          {| image_data := image_data w; data_txt := "";
             open_files := HexList :: open_files w;
             writes := writes w; plan := plan w |}).

(** [f.write(s)] on the text output: appends [s]. *)
Definition write (h : handle) (s : string) : M unit :=
  fun w =>
    if negb (is_open h w) then (Raise ValueError, w)
    else if write_fails (plan w) (writes w) then
      (Raise OSError,
       {| image_data := image_data w; data_txt := data_txt w;
          open_files := open_files w; writes := S (writes w); plan := plan w |})
    else
      (Ok tt,
       {| image_data := image_data w; data_txt := data_txt w ++ s;
          open_files := open_files w; writes := S (writes w); plan := plan w |}).

(** [data[k]] on a bytes object: an int in 0..255, negative subscripts
    count from the end, anything else out of range raises. *)
Definition index (data : list byte) (k : Z) : M Z :=
  let n := Z.of_nat (List.length data) in
  let k' := if k <? 0 then k + n else k in
  if k' <? 0 then raise IndexError
  else match nth_error data (Z.to_nat k') with
       | Some b => ret (Z.of_N (Byte.to_N b))
       | None => raise IndexError
       end.

(** [a << n] on ints. *)
Definition lshift (a n : Z) : M Z :=
  if n <? 0 then raise ValueError else ret (Z.shiftl a n).

(** [range(n)] *)
Definition range (n : Z) : list Z :=
  map Z.of_nat (seq 0 (Z.to_nat n)).

(** [for i in idx: s = body(i, s)] *)
Fixpoint for_in {St : Type} (idx : list Z) (body : Z -> St -> M St) (s : St) : M St :=
  match idx with
  | [] => ret s
  | i :: idx' => bind (body i s) (for_in idx' body)
  end.

(** *** ['{:016X}'.format(n)] *)

Definition hex_digit (d : Z) : ascii :=
  nth (Z.to_nat d)
      ["0"; "1"; "2"; "3"; "4"; "5"; "6"; "7";
       "8"; "9"; "A"; "B"; "C"; "D"; "E"; "F"]%char "0"%char.

(** Digits of [n >= 0], most significant first, pushed in front of [acc]. *)
Fixpoint hex_loop (fuel : nat) (n : Z) (acc : string) : string :=
  match fuel with
  | O => acc
  | S fuel' =>
      let acc' := String (hex_digit (n mod 16)) acc in
      if n / 16 =? 0 then acc' else hex_loop fuel' (n / 16) acc'
  end.

Definition hex_upper (n : Z) : string :=
  hex_loop (S (Z.to_nat (Z.log2 n))) n "".

Fixpoint zeros (k : nat) : string :=
  match k with
  | O => ""
  | S k' => String "0" (zeros k')
  end.

(** Width 16, zero fill after the sign. *)
Definition format_016X (n : Z) : string :=
  if n <? 0 then
    let d := hex_upper (- n) in "-" ++ zeros (15 - String.length d) ++ d
  else
    let d := hex_upper n in zeros (16 - String.length d) ++ d.

End Py.

Import Py.

Notation "x <- m ;; k" := (bind m (fun x => k))
  (at level 61, m at next level, right associativity).
Notation "m ;; k" := (bind m (fun _ => k))
  (at level 61, right associativity).

(** ** The script *)

Record locals : Type := mkLocals {
  comma : string;
  numBits : Z;
  bits : Z
}.

(** Body of the [for] loop, lines 13-21. *)
Definition body (hexList : handle) (data : list byte) (numPixels : Z)
    (i : Z) (l : locals) : M locals :=
  x <- index data (3 * i) ;;
  let value := if x =? 255 then 1 else 0 in
  sh <- lshift value (numBits l) ;;
  let bits' := Z.lor (bits l) sh in
  let numBits' := numBits l + 1 in
  if (numBits' =? 64) || (i =? numPixels - 1) then
    let hexStr := comma l ++ "0x" ++ format_016X bits' in
    write hexList hexStr ;;
    ret {| comma := ", "; numBits := 0; bits := 0 |}
  else
    ret {| comma := comma l; numBits := numBits'; bits := bits' |}.

Definition init : locals := {| comma := ""; numBits := 0; bits := 0 |}.

Definition numPixels (data : list byte) : Z := Z.of_nat (List.length data) / 3.

(** The whole script. *)
Definition main : M unit :=
  rawImage <- open_rb ;;
  data <- read rawImage ;;
  close rawImage ;;
  hexList <- open_w ;;
  let numPixels := numPixels data in
  for_in (range numPixels) (body hexList data numPixels) init ;;
  close hexList.

(** A run starts with no file open; [old] is whatever [data.txt] held. *)
Definition boot (f : faults) (data : list byte) (old : string) : world :=
  {| image_data := data; data_txt := old; open_files := []; writes := 0; plan := f |}.

(** The text left in [data.txt] by a run in which no operation fails. *)
Definition tohex (data : list byte) : string :=
  data_txt (snd (main (boot quiet data ""))).

(** The local variables at the top of iteration [k] (after iterations
    [0 .. k-1]) of the loop over [data]. *)
Definition at_top (data : list byte) (k : Z) : M locals :=
  for_in (range k) (body HexList data (numPixels data)) init.

(** ** Reading the output text back

    The claims speak of the words of the output; they are recovered from the
    text itself: the pieces between the separators, and for each piece the
    number its sixteen digits denote. *)

(** Pieces of [s] between occurrences of [", "]; never empty. *)
Definition push_char (c : ascii) (ws : list string) : list string :=
  match ws with
  | [] => [String c ""]
  | w :: ws' => String c w :: ws'
  end.

Fixpoint split_sep (s : string) : list string :=
  match s with
  | "" => [""]
  | String c s' =>
      match s' with
      | String c' rest =>
          if Ascii.eqb c "," && Ascii.eqb c' " " then "" :: split_sep rest
          else push_char c (split_sep s')
      | "" => push_char c (split_sep s')
      end
  end.

(** The words of an output text: none in the empty text. *)
Definition words_of (text : string) : list string :=
  match text with
  | "" => []
  | _ => split_sep text
  end.

Definition hex_val (c : ascii) : option Z :=
  let n := Z.of_nat (nat_of_ascii c) in
  if (48 <=? n) && (n <=? 57) then Some (n - 48)
  else if (65 <=? n) && (n <=? 70) then Some (n - 55)
  else None.

Definition is_hex (c : ascii) : bool :=
  match hex_val c with Some _ => true | None => false end.

Fixpoint all_chars (p : ascii -> bool) (s : string) : bool :=
  match s with
  | "" => true
  | String c s' => p c && all_chars p s'
  end.

(** [0x], then exactly sixteen characters of [0-9A-F]. *)
Definition word_shape (w : string) : Prop :=
  exists h, w = "0x" ++ h /\ String.length h = 16%nat /\ all_chars is_hex h = true.

(** The same as a test. *)
Definition is_word (w : string) : bool :=
  match w with
  | String "0" (String "x" h) => (String.length h =? 16)%nat && all_chars is_hex h
  | _ => false
  end.

Fixpoint hex_parse (acc : Z) (s : string) : option Z :=
  match s with
  | "" => Some acc
  | String c s' =>
      match hex_val c with
      | Some d => hex_parse (16 * acc + d) s'
      | None => None
      end
  end.

(** The number a word denotes. *)
Definition word_value (w : string) : option Z :=
  match w with
  | String "0" (String "x" h) => hex_parse 0 h
  | _ => None
  end.

(** Number of words for [n] pixels: [n / 64] rounded up. *)
Definition ceil64 (n : Z) : Z := (n + 63) / 64.

(** ** Devices of the proofs

    None of these is part of the script; they describe what the loop leaves
    behind, and the lemmas below tie them to [main]. *)

Definition not_comma (c : ascii) : bool := negb (Ascii.eqb c ",").

(** A flushed accumulator as it is written, without the separator. *)
Definition word (v : Z) : string := "0x" ++ format_016X v.

(** The value the loop ORs in for pixel [i]. *)
Definition red_bit (data : list byte) (i : nat) : Z :=
  match nth_error data (3 * i) with
  | Some b => if Z.of_N (Byte.to_N b) =? 255 then 1 else 0
  | None => 0
  end.

(** The values for pixels [a .. a+m-1]. *)
Definition mask (data : list byte) (a m : nat) : list Z :=
  map (red_bit data) (seq a m).

(** The flush test of iteration [i] of a loop over [n] pixels. *)
Definition flush_due (n : Z) (i : nat) (l : locals) : bool :=
  (numBits l + 1 =? 64) || (Z.of_nat i =? n - 1).

(** The accumulator after the OR of iteration [i]. *)
Definition bits_after (data : list byte) (i : nat) (l : locals) : Z :=
  Z.lor (bits l) (Z.shiftl (red_bit data i) (numBits l)).

(** The accumulators flushed by the loop started with [nb] bits [b] held,
    on the remaining values [vs]. *)
Fixpoint pack (nb b : Z) (vs : list Z) : list Z :=
  match vs with
  | [] => []
  | v :: vs' =>
      let b' := Z.lor b (Z.shiftl v nb) in
      if (nb + 1 =? 64) || (match vs' with [] => true | _ => false end)
      then b' :: pack 0 0 vs'
      else pack (nb + 1) b' vs'
  end.

(** The text written for the flushed values [vs], the first one after the
    separator [c]. *)
Fixpoint render (c : string) (vs : list Z) : string :=
  match vs with
  | [] => ""
  | v :: vs' => c ++ word v ++ render ", " vs'
  end.

(** [b] is a natural number with no bit set at position [k] or above. *)
Definition low (k b : Z) : Prop :=
  0 <= b /\ forall j, k <= j -> Z.testbit b j = false.

Definition bitval (v : Z) : Prop := v = 0 \/ v = 1.

(** The values flushed by the loop over [data]. *)
Definition flushed (data : list byte) : list Z :=
  pack 0 0 (mask data 0 (Z.to_nat (numPixels data))).

(** Failure plans of the error paths: the read fails; the output cannot be
    created; the first write fails. *)
Definition read_fault : faults :=
  {| open_image_fails := false; read_fails := true;
     open_txt_fails := false; write_fails := fun _ => false |}.

Definition create_fault : faults :=
  {| open_image_fails := false; read_fails := false;
     open_txt_fails := true; write_fails := fun _ => false |}.

Definition write_fault : faults :=
  {| open_image_fails := false; read_fails := false;
     open_txt_fails := false; write_fails := fun k => Nat.eqb k 0 |}.

(** The world in which a run without failures enters the loop. *)
Definition at_loop (data : list byte) : world :=
  {| image_data := data; data_txt := ""; open_files := [HexList];
     writes := 0; plan := quiet |}.

(** ** Strings *)

Section StringFacts.

Lemma str_app_assoc (a b c : string) : (a ++ b) ++ c = a ++ (b ++ c).
Proof. induction a as [|x a IH]; simpl; [reflexivity | now rewrite IH]. Qed.

Lemma str_app_nil_r (a : string) : a ++ "" = a.
Proof. induction a as [|x a IH]; simpl; [reflexivity | now rewrite IH]. Qed.

Lemma str_length_app (a b : string) :
  String.length (a ++ b) = (String.length a + String.length b)%nat.
Proof. induction a as [|x a IH]; simpl; [reflexivity | now rewrite IH]. Qed.

Lemma all_chars_app p (a b : string) :
  all_chars p (a ++ b) = all_chars p a && all_chars p b.
Proof.
  induction a as [|x a IH]; simpl; [reflexivity|].
  now rewrite IH, andb_assoc.
Qed.

Lemma all_chars_weaken (p q : ascii -> bool) (s : string) :
  (forall c, p c = true -> q c = true) ->
  all_chars p s = true -> all_chars q s = true.
Proof.
  intros Hpq. induction s as [|c s IH]; simpl; [reflexivity|].
  rewrite !andb_true_iff. intros [Hc Hs]. split; auto.
Qed.

Lemma length_zeros k : String.length (zeros k) = k.
Proof. induction k; simpl; congruence. Qed.

Lemma all_hex_zeros k : all_chars is_hex (zeros k) = true.
Proof. induction k; simpl; auto. Qed.

Lemma hex_parse_zeros k s : hex_parse 0 (zeros k ++ s) = hex_parse 0 s.
Proof. induction k; simpl; auto. Qed.

End StringFacts.

(** ** The [016X] format on 64-bit values *)

Section HexFacts.

Lemma hex_digit_cases (d : Z) :
  0 <= d < 16 ->
  hex_val (hex_digit d) = Some d.
Proof.
  intros Hd.
  assert (Hk : exists k, (k < 16)%nat /\ d = Z.of_nat k).
  { exists (Z.to_nat d). lia. }
  destruct Hk as (k & Hk & ->).
  do 16 (destruct k as [|k]; [reflexivity|]).
  lia.
Qed.

Lemma hex_digit_is_hex (d : Z) : 0 <= d < 16 -> is_hex (hex_digit d) = true.
Proof. intros Hd. unfold is_hex. now rewrite hex_digit_cases. Qed.

Lemma hex_loop_length (f : nat) :
  forall (k : nat) (n : Z) (acc : string),
    0 <= n < 16 ^ Z.of_nat (S k) ->
    (String.length (hex_loop f n acc) <= S k + String.length acc)%nat.
Proof.
  induction f as [|f IH]; intros k n acc Hn; simpl; [lia|].
  destruct (Z.eqb_spec (n / 16) 0) as [Hq|Hq]; simpl; [lia|].
  rewrite Nat2Z.inj_succ, Z.pow_succ_r in Hn by lia.
  destruct k as [|k].
  - exfalso. apply Hq. apply Z.div_small. simpl in Hn. lia.
  - specialize (IH k (n / 16) (String (hex_digit (n mod 16)) acc)).
    simpl String.length in IH.
    assert (0 <= n / 16 < 16 ^ Z.of_nat (S k)).
    { split; [apply Z.div_pos; lia|].
      apply Z.div_lt_upper_bound; lia. }
    specialize (IH H). lia.
Qed.

Lemma hex_loop_all_hex (f : nat) :
  forall (n : Z) (acc : string),
    all_chars is_hex acc = true ->
    all_chars is_hex (hex_loop f n acc) = true.
Proof.
  induction f as [|f IH]; intros n acc Hacc; simpl; [assumption|].
  assert (Hd : all_chars is_hex (String (hex_digit (n mod 16)) acc) = true).
  { simpl. rewrite Hacc, hex_digit_is_hex; [reflexivity|].
    apply Z.mod_pos_bound. lia. }
  destruct (n / 16 =? 0); [exact Hd | now apply IH].
Qed.

(** Enough fuel: the loop has pushed all of [n] when it stops. *)
Lemma hex_loop_parse (f : nat) :
  forall (n : Z) (acc : string),
    0 <= n < 16 ^ Z.of_nat f ->
    hex_parse 0 (hex_loop f n acc) = hex_parse n acc.
Proof.
  induction f as [|f IH]; intros n acc Hn.
  - simpl in *. now replace n with 0 by lia.
  - rewrite Nat2Z.inj_succ, Z.pow_succ_r in Hn by lia.
    assert (Hm : 0 <= n mod 16 < 16) by (apply Z.mod_pos_bound; lia).
    assert (Hdm : n = 16 * (n / 16) + n mod 16) by (apply Z.div_mod; lia).
    cbn [hex_loop].
    destruct (Z.eqb_spec (n / 16) 0) as [Hq|Hq].
    + cbn [hex_parse]. rewrite hex_digit_cases by assumption.
      f_equal. lia.
    + rewrite IH.
      * cbn [hex_parse]. rewrite hex_digit_cases by assumption.
        f_equal. lia.
      * split; [apply Z.div_pos; lia|].
        apply Z.div_lt_upper_bound; lia.
Qed.

Lemma hex_upper_fuel (n : Z) :
  0 <= n -> n < 16 ^ Z.of_nat (S (Z.to_nat (Z.log2 n))).
Proof.
  intros Hn.
  assert (Hl : 0 <= Z.log2 n) by apply Z.log2_nonneg.
  rewrite Nat2Z.inj_succ, Z2Nat.id by assumption.
  destruct (Z.eq_dec n 0) as [->|Hz]; [reflexivity|].
  apply Z.lt_le_trans with (2 ^ Z.succ (Z.log2 n)).
  - apply Z.log2_spec. lia.
  - apply Z.pow_le_mono_l. lia.
Qed.

(** A value below [2^64] prints as exactly sixteen digits of [0-9A-F]
    which read back as the value. *)
Lemma format_016X_word (n : Z) :
  0 <= n < 2 ^ 64 ->
  String.length (format_016X n) = 16%nat
  /\ all_chars is_hex (format_016X n) = true
  /\ hex_parse 0 (format_016X n) = Some n.
Proof.
  intros Hn. unfold format_016X.
  destruct (Z.ltb_spec n 0) as [Hneg|_]; [lia|].
  cbv zeta. unfold hex_upper.
  set (f := S (Z.to_nat (Z.log2 n))).
  assert (Hlen : (String.length (hex_loop f n "") <= 16)%nat).
  { pose proof (hex_loop_length f 15 n "") as H.
    change (16 ^ Z.of_nat 16) with (2 ^ 64) in H.
    specialize (H Hn). change (String.length "") with 0%nat in H. lia. }
  repeat split.
  - rewrite str_length_app, length_zeros. lia.
  - rewrite all_chars_app, all_hex_zeros, andb_true_l.
    now apply hex_loop_all_hex.
  - rewrite hex_parse_zeros, hex_loop_parse; [reflexivity|].
    split; [lia|]. apply hex_upper_fuel. lia.
Qed.

End HexFacts.

(** ** Words and separators *)

Section WordFacts.

Lemma is_hex_not_comma (c : ascii) : is_hex c = true -> not_comma c = true.
Proof.
  destruct c as [[] [] [] [] [] [] [] []]; intros H;
    vm_compute in H |- *; congruence.
Qed.

Lemma split_sep_cons (c : ascii) (s : string) :
  not_comma c = true -> split_sep (String c s) = push_char c (split_sep s).
Proof.
  unfold not_comma. intros H. apply negb_true_iff in H.
  destruct s as [|c' s]; cbn [split_sep]; [reflexivity|].
  now rewrite H.
Qed.

Lemma split_sep_single (w : string) :
  all_chars not_comma w = true -> split_sep w = [w].
Proof.
  induction w as [|c w IH]; [reflexivity|].
  cbn [all_chars]. rewrite andb_true_iff. intros [Hc Hw].
  now rewrite split_sep_cons, IH.
Qed.

Lemma split_sep_app (w s : string) :
  all_chars not_comma w = true ->
  split_sep (w ++ ", " ++ s) = w :: split_sep s.
Proof.
  induction w as [|c w IH]; [reflexivity|].
  cbn [all_chars]. rewrite andb_true_iff. intros [Hc Hw].
  cbn [append]. rewrite split_sep_cons by assumption.
  cbn [append] in IH. now rewrite IH.
Qed.

Lemma is_word_shape (w : string) :
  is_word w = true ->
  exists h, w = "0x" ++ h /\ String.length h = 16%nat /\ all_chars is_hex h = true.
Proof.
  destruct w as [|c0 [|c1 h]]; try discriminate.
  - unfold is_word. destruct c0 as [[] [] [] [] [] [] [] []]; discriminate.
  - unfold is_word.
    destruct (Ascii.eqb_spec c0 "0") as [->|H0].
    + destruct (Ascii.eqb_spec c1 "x") as [->|H1].
      * rewrite andb_true_iff, Nat.eqb_eq. intros [Hl Hh].
        exists h. auto.
      * destruct c1 as [[] [] [] [] [] [] [] []]; try discriminate.
        now contradiction H1.
    + destruct c0 as [[] [] [] [] [] [] [] []]; try discriminate.
      now contradiction H0.
Qed.

Lemma is_word_not_comma (w : string) :
  is_word w = true -> all_chars not_comma w = true.
Proof.
  intros H. destruct (is_word_shape w H) as (h & -> & _ & Hh).
  cbn. apply all_chars_weaken with (p := is_hex); auto using is_hex_not_comma.
Qed.

Lemma words_of_concat (ws : list string) :
  Forall (fun w => is_word w = true) ws ->
  words_of (String.concat ", " ws) = ws.
Proof.
  intros Hws.
  assert (Hs : ws <> [] -> split_sep (String.concat ", " ws) = ws).
  { induction Hws as [|w ws Hw Hws IH]; [congruence|]. intros _.
    apply is_word_not_comma in Hw.
    destruct ws as [|w' ws].
    - now apply split_sep_single.
    - change (String.concat ", " (w :: w' :: ws))
        with (w ++ ", " ++ String.concat ", " (w' :: ws)).
      rewrite split_sep_app by assumption.
      rewrite IH; [reflexivity | discriminate]. }
  destruct Hws as [|w ws Hw Hws]; [reflexivity|].
  unfold words_of.
  destruct (is_word_shape w Hw) as (h & -> & _).
  destruct ws; cbn [String.concat append]; apply Hs; discriminate.
Qed.

Lemma word_is_word (v : Z) : 0 <= v < 2 ^ 64 -> is_word (word v) = true.
Proof.
  intros Hv. destruct (format_016X_word v Hv) as (Hl & Hh & _).
  unfold word. cbn [append is_word].
  now rewrite Hl, Hh.
Qed.

Lemma word_value_word (v : Z) : 0 <= v < 2 ^ 64 -> word_value (word v) = Some v.
Proof.
  intros Hv. destruct (format_016X_word v Hv) as (_ & _ & Hp).
  exact Hp.
Qed.

End WordFacts.

(** ** Bits of the accumulator *)

Section Bits.

Lemma low_bound (k b : Z) : 0 <= k -> low k b -> 0 <= b < 2 ^ k.
Proof.
  intros Hk [Hb Hbits]. split; [assumption|].
  destruct (Z.eq_dec b 0) as [->|Hz]; [apply Z.pow_pos_nonneg; lia|].
  apply Z.log2_lt_pow2; [lia|].
  destruct (Z.lt_ge_cases (Z.log2 b) k) as [|Hge]; [assumption|].
  specialize (Hbits _ Hge). rewrite Z.bit_log2 in Hbits by lia. discriminate.
Qed.

Lemma bound_low (k b : Z) : 0 <= b < 2 ^ k -> low k b.
Proof.
  intros [Hb Hlt]. split; [assumption|]. intros j Hj.
  destruct (Z.eq_dec b 0) as [->|Hz]; [apply Z.bits_0|].
  apply Z.bits_above_log2; [assumption|].
  destruct (Z.lt_ge_cases k 0) as [Hneg|Hk].
  - rewrite Z.pow_neg_r in Hlt by assumption. lia.
  - assert (Z.log2 b < k) by (apply Z.log2_lt_pow2; lia). lia.
Qed.

Lemma low_mono (k k' b : Z) : k <= k' -> low k b -> low k' b.
Proof. intros Hk [Hb Hbits]. split; [assumption|]. intros j Hj. apply Hbits. lia. Qed.

Lemma low_zero (k : Z) : low k 0.
Proof. split; [lia|]. intros. apply Z.bits_0. Qed.

Lemma testbit_bitval (v k : Z) :
  bitval v -> Z.testbit v k = (v =? 1) && (k =? 0).
Proof.
  intros [->| ->]; [apply Z.bits_0|].
  destruct k; reflexivity.
Qed.

(** What the OR of one iteration does to each bit. *)
Lemma testbit_or_shift (b v nb j : Z) :
  0 <= nb -> 0 <= j -> bitval v ->
  Z.testbit (Z.lor b (Z.shiftl v nb)) j = Z.testbit b j || ((v =? 1) && (j =? nb)).
Proof.
  intros Hnb Hj Hv.
  rewrite Z.lor_spec, Z.shiftl_spec, (testbit_bitval v) by assumption.
  do 2 f_equal.
  destruct (Z.eqb_spec (j - nb) 0), (Z.eqb_spec j nb); reflexivity || lia.
Qed.

Lemma low_or_shift (b v nb : Z) :
  0 <= nb -> bitval v -> low nb b -> low (nb + 1) (Z.lor b (Z.shiftl v nb)).
Proof.
  intros Hnb Hv [Hb Hbits]. split.
  - apply Z.lor_nonneg. split; [assumption|].
    apply Z.shiftl_nonneg. destruct Hv; lia.
  - intros j Hj. rewrite testbit_or_shift by (assumption || lia).
    rewrite Hbits by lia.
    destruct (Z.eqb_spec j nb); [lia|]. now rewrite andb_false_r.
Qed.

Lemma red_bit_bitval (data : list byte) (i : nat) : bitval (red_bit data i).
Proof.
  unfold red_bit, bitval.
  destruct (nth_error data (3 * i)) as [b|]; [|auto].
  destruct (Z.of_N (Byte.to_N b) =? 255); auto.
Qed.

Lemma mask_bitval (data : list byte) (a m : nat) : Forall bitval (mask data a m).
Proof. apply Forall_map, Forall_forall. intros. apply red_bit_bitval. Qed.

End Bits.

(** ** The flushed values *)

Section Pack.

Lemma pack_cons (nb b v : Z) (vs : list Z) :
  pack nb b (v :: vs) =
    if (nb + 1 =? 64) || (match vs with [] => true | _ => false end)
    then Z.lor b (Z.shiftl v nb) :: pack 0 0 vs
    else pack (nb + 1) (Z.lor b (Z.shiftl v nb)) vs.
Proof. reflexivity. Qed.

(** Every flushed value is a 64-bit value. *)
Lemma pack_bounds (vs : list Z) :
  forall nb b,
    Forall bitval vs -> 0 <= nb < 64 -> low nb b ->
    Forall (fun x => 0 <= x < 2 ^ 64) (pack nb b vs).
Proof.
  induction vs as [|v vs IH]; intros nb b Hvs Hnb Hlow; [constructor|].
  inversion Hvs as [|? ? Hv Hvs']; subst.
  rewrite pack_cons.
  assert (Hb' : low (nb + 1) (Z.lor b (Z.shiftl v nb)))
    by (apply low_or_shift; (assumption || lia)).
  destruct ((nb + 1 =? 64) || _) eqn:Hflush.
  - constructor.
    + apply low_bound; [lia|]. apply low_mono with (nb + 1); [lia | assumption].
    + apply IH; [assumption | lia | apply low_zero].
  - apply orb_false_iff in Hflush. destruct Hflush as [Hne _].
    apply Z.eqb_neq in Hne.
    apply IH; [assumption | lia | assumption].
Qed.

(** One value per started group of 64 bit positions. *)
Lemma pack_length (vs : list Z) :
  forall nb b,
    0 <= nb < 64 -> (vs = [] -> nb = 0) ->
    Z.of_nat (List.length (pack nb b vs)) = (nb + Z.of_nat (List.length vs) + 63) / 64.
Proof.
  induction vs as [|v vs IH]; intros nb b Hnb Hnil.
  - rewrite Hnil by reflexivity. reflexivity.
  - rewrite pack_cons.
    destruct (Z.eqb_spec (nb + 1) 64) as [H64|H64]; cbn [orb].
    + cbn [List.length]. rewrite !Nat2Z.inj_succ.
      rewrite (IH 0 0) by (auto; lia).
      replace (nb + Z.succ (Z.of_nat (List.length vs)) + 63)
        with (0 + Z.of_nat (List.length vs) + 63 + 1 * 64) by lia.
      rewrite Z.div_add by lia. lia.
    + destruct vs as [|v' vs].
      * change (1 = (nb + 1 + 63) / 64).
        apply Z.div_unique with nb; lia.
      * rewrite IH by (try discriminate; lia).
        f_equal. cbn [List.length]. lia.
Qed.

Lemma nth_cons_Z (k v d : Z) (vs : list Z) :
  0 < k -> nth (Z.to_nat k) (v :: vs) d = nth (Z.to_nat (k - 1)) vs d.
Proof.
  intros Hk. replace (Z.to_nat k) with (S (Z.to_nat (k - 1))) by lia. reflexivity.
Qed.

Lemma nth_nil_Z (k : nat) : nth k (@nil Z) 0 = 0.
Proof. destruct k; reflexivity. Qed.

(** Bit position [q], counted from the first bit held in [b], of the
    flushed values: below [nb] it is a bit of [b], from [nb] on it is the
    value [q - nb] positions ahead (0 past the end). *)
Lemma pack_testbit (vs : list Z) :
  forall nb b q,
    Forall bitval vs -> 0 <= nb < 64 -> (vs = [] -> nb = 0) -> low nb b -> 0 <= q ->
    Z.testbit (nth (Z.to_nat (q / 64)) (pack nb b vs) 0) (q mod 64) =
      if q <? nb then Z.testbit b q else (nth (Z.to_nat (q - nb)) vs 0 =? 1).
Proof.
  induction vs as [|v vs IH]; intros nb b q Hvs Hnb Hnil Hlow Hq.
  - rewrite Hnil by reflexivity.
    destruct (Z.ltb_spec q 0); [lia|].
    cbn [pack]. rewrite !nth_nil_Z. apply Z.bits_0.
  - inversion Hvs as [|? ? Hv Hvs']; subst.
    destruct Hlow as [Hb Hbits].
    assert (Hor : Z.testbit (Z.lor b (Z.shiftl v nb)) q
                  = Z.testbit b q || ((v =? 1) && (q =? nb)))
      by (apply testbit_or_shift; (assumption || lia)).
    rewrite pack_cons.
    destruct ((nb + 1 =? 64) || _) eqn:Hflush.
    + (* flushed: the first value is complete *)
      assert (Hcase : nb = 63 \/ (nb < 63 /\ vs = [])).
      { apply orb_true_iff in Hflush. destruct Hflush as [H|H].
        - apply Z.eqb_eq in H. lia.
        - destruct vs; [|discriminate].
          destruct (Z.eq_dec nb 63); [left | right; split]; auto; lia. }
      destruct (Z.lt_ge_cases q 64) as [Hlt|Hge].
      * rewrite Z.div_small, Z.mod_small by lia.
        change (nth (Z.to_nat 0) (Z.lor b (Z.shiftl v nb) :: pack 0 0 vs) 0)
          with (Z.lor b (Z.shiftl v nb)).
        rewrite Hor.
        destruct (Z.ltb_spec q nb) as [Hqn|Hqn].
        -- destruct (Z.eqb_spec q nb); [lia|]. now rewrite andb_false_r, orb_false_r.
        -- rewrite Hbits by lia. cbn [orb].
           destruct (Z.eqb_spec q nb) as [->|Hne].
           ++ rewrite Z.sub_diag. change (nth (Z.to_nat 0) (v :: vs) 0) with v.
              now rewrite andb_true_r.
           ++ rewrite andb_false_r.
              destruct Hcase as [H63|[_ ->]]; [lia|].
              rewrite nth_cons_Z by lia. now rewrite nth_nil_Z.
      * replace q with ((q - 64) + 1 * 64) at 1 2 by lia.
        rewrite Z.div_add, Z_mod_plus_full by lia.
        replace (Z.to_nat ((q - 64) / 64 + 1)) with (S (Z.to_nat ((q - 64) / 64)))
          by (assert (0 <= (q - 64) / 64) by (apply Z.div_pos; lia); lia).
        change (nth (S ?k) (?x :: ?l) ?d) with (nth k l d).
        rewrite (IH 0 0 (q - 64)) by (auto using low_zero; lia).
        destruct (Z.ltb_spec (q - 64) 0); [lia|].
        destruct (Z.ltb_spec q nb); [lia|].
        rewrite nth_cons_Z by lia.
        destruct Hcase as [->|[_ ->]].
        -- do 3 f_equal. lia.
        -- now rewrite !nth_nil_Z.
    + (* not flushed: the accumulator grows by one bit *)
      apply orb_false_iff in Hflush. destruct Hflush as [Hne Hvs0].
      apply Z.eqb_neq in Hne.
      rewrite IH; [| assumption | lia | intros ->; discriminate
                   | apply low_or_shift; [lia | assumption | split; assumption]
                   | assumption].
      destruct (Z.ltb_spec q (nb + 1)) as [Hq1|Hq1].
      * rewrite Hor.
        destruct (Z.ltb_spec q nb) as [Hqn|Hqn].
        -- destruct (Z.eqb_spec q nb); [lia|]. now rewrite andb_false_r, orb_false_r.
        -- assert (q = nb) by lia. subst q.
           rewrite Hbits by lia. rewrite Z.eqb_refl, andb_true_r, Z.sub_diag.
           reflexivity.
      * destruct (Z.ltb_spec q nb); [lia|].
        rewrite nth_cons_Z by lia.
        do 3 f_equal. lia.
Qed.

End Pack.

(** ** The loop, run without I/O failures *)

Section Loop.

Variable data : list byte.

Local Abbreviation N := (numPixels data).

Lemma numPixels_nonneg : 0 <= numPixels data.
Proof. unfold numPixels. apply Z.div_pos; lia. Qed.

Lemma numPixels_nat : Z.to_nat (numPixels data) = (List.length data / 3)%nat.
Proof.
  unfold numPixels. rewrite <- (Nat2Z.id (List.length data / 3)).
  f_equal. now rewrite Nat2Z.inj_div.
Qed.

Lemma pixel_in_range (i : nat) :
  (i < Z.to_nat (numPixels data))%nat -> (3 * i < List.length data)%nat.
Proof.
  rewrite numPixels_nat. intros Hi.
  pose proof (Nat.Div0.mul_div_le (List.length data) 3). lia.
Qed.

(** Inside the pixel range the subscript never raises. *)
Lemma index_pixel (i : nat) (w : world) :
  (i < Z.to_nat (numPixels data))%nat ->
  exists b, nth_error data (3 * i) = Some b
            /\ index data (3 * Z.of_nat i) w = (Ok (Z.of_N (Byte.to_N b)), w).
Proof.
  intros Hi. apply pixel_in_range in Hi.
  destruct (nth_error data (3 * i)) as [b|] eqn:Hb.
  - exists b. split; [reflexivity|]. unfold index. cbv zeta.
    destruct (Z.ltb_spec (3 * Z.of_nat i) 0) as [Hneg|Hpos]; [lia|].
    destruct (Z.ltb_spec (3 * Z.of_nat i) 0) as [Hneg|_]; [lia|].
    replace (Z.to_nat (3 * Z.of_nat i)) with (3 * i)%nat by lia.
    now rewrite Hb.
  - apply nth_error_None in Hb. lia.
Qed.

(** One iteration, as a case split on the flush test. *)
Lemma body_step (i : nat) (l : locals) (w : world) :
  (i < Z.to_nat N)%nat ->
  0 <= numBits l ->
  is_open HexList w = true ->
  write_fails (plan w) (writes w) = false ->
  body HexList data N (Z.of_nat i) l w =
    if flush_due N i l then
      (Ok {| comma := ", "; numBits := 0; bits := 0 |},
       {| image_data := image_data w;
          data_txt := data_txt w ++ comma l ++ word (bits_after data i l);
          open_files := open_files w; writes := S (writes w); plan := plan w |})
    else
      (Ok {| comma := comma l; numBits := numBits l + 1;
             bits := bits_after data i l |}, w).
Proof.
  intros Hi Hnb Hopen Hw.
  destruct (index_pixel i w Hi) as (b & Hb & Hidx).
  unfold body, bind. rewrite Hidx.
  unfold lshift. destruct (Z.ltb_spec (numBits l) 0) as [Hneg|_]; [lia|].
  unfold ret, flush_due, bits_after, red_bit. rewrite Hb.
  destruct ((numBits l + 1 =? 64) || (Z.of_nat i =? N - 1)); [|reflexivity].
  unfold write. now rewrite Hopen, Hw.
Qed.

(** Continue with the induction hypothesis [IH] on the rest of the loop,
    from the locals and the world the first iteration has left. *)
Ltac rest_of_loop IH a pat :=
  match goal with
  | |- context [for_in _ _ ?l1 ?w1] => destruct (IH (S a) l1 w1) as pat
  end.

(** The flush test sees the last pixel exactly when no value remains. *)
Lemma pack_step (a m : nat) (l : locals) :
  (a + S m = Z.to_nat N)%nat ->
  pack (numBits l) (bits l) (mask data a (S m)) =
    if flush_due N a l
    then bits_after data a l :: pack 0 0 (mask data (S a) m)
    else pack (numBits l + 1) (bits_after data a l) (mask data (S a) m).
Proof.
  intros Ham. pose proof numPixels_nonneg as HN.
  unfold mask. cbn [seq map pack]. fold (bits_after data a l).
  unfold flush_due.
  replace (Z.of_nat a =? N - 1)
    with (match map (red_bit data) (seq (S a) m) with [] => true | _ => false end);
    [reflexivity|].
  destruct m as [|m]; cbn [seq map]; symmetry.
  - apply Z.eqb_eq. lia.
  - apply Z.eqb_neq. lia.
Qed.

Lemma loop_run (m : nat) :
  forall (a : nat) (l : locals) (w : world),
    (a + m = Z.to_nat N)%nat ->
    0 <= numBits l ->
    is_open HexList w = true ->
    (forall k, write_fails (plan w) k = false) ->
    exists l' w',
      for_in (map Z.of_nat (seq a m)) (body HexList data N) l w = (Ok l', w')
      /\ data_txt w' =
           data_txt w ++ render (comma l) (pack (numBits l) (bits l) (mask data a m))
      /\ open_files w' = open_files w
      /\ plan w' = plan w.
Proof.
  induction m as [|m IH]; intros a l w Ham Hnb Hopen Hq.
  - exists l, w. cbn. now rewrite str_app_nil_r.
  - rewrite pack_step by assumption.
    cbn [seq map for_in]. unfold bind at 1.
    rewrite body_step by (auto; lia).
    destruct (flush_due N a l).
    + rest_of_loop IH a ipattern:((l' & w' & Hrun & Htxt & Hof & Hpl));
        [lia | cbn; lia | exact Hopen | exact Hq |].
      exists l', w'. cbn in Htxt, Hof, Hpl.
      repeat split; try assumption.
      rewrite Htxt. cbn [render]. now rewrite !str_app_assoc.
    + rest_of_loop IH a ipattern:((l' & w' & Hrun & Htxt & Hof & Hpl));
        [lia | cbn; lia | exact Hopen | exact Hq |].
      exists l', w'. repeat split; assumption.
Qed.

(** The bounds on the accumulator are kept by any number of iterations. *)
Lemma loop_inv (m : nat) :
  forall (a : nat) (l : locals) (w : world),
    (a + m <= Z.to_nat N)%nat ->
    0 <= numBits l <= 63 ->
    low (numBits l) (bits l) ->
    is_open HexList w = true ->
    (forall k, write_fails (plan w) k = false) ->
    exists l' w',
      for_in (map Z.of_nat (seq a m)) (body HexList data N) l w = (Ok l', w')
      /\ 0 <= numBits l' <= 63
      /\ low (numBits l') (bits l')
      /\ is_open HexList w' = true
      /\ plan w' = plan w.
Proof.
  induction m as [|m IH]; intros a l w Ham Hnb Hlow Hopen Hq.
  - exists l, w. cbn. auto.
  - cbn [seq map for_in]. unfold bind at 1.
    rewrite body_step by (auto; lia).
    destruct (flush_due N a l) eqn:Hflush.
    + rest_of_loop IH a ipattern:((l' & w' & Hrun & Hnb' & Hlow' & Hopen' & Hpl));
        [lia | cbn; lia | apply low_zero | exact Hopen | exact Hq |].
      exists l', w'. auto.
    + apply orb_false_iff in Hflush. destruct Hflush as [Hne _].
      apply Z.eqb_neq in Hne.
      rest_of_loop IH a ipattern:((l' & w' & Hrun & Hnb' & Hlow' & Hopen' & Hpl));
        [lia | cbn; lia
         | apply low_or_shift; [lia | apply red_bit_bitval | assumption]
         | exact Hopen | exact Hq |].
      exists l', w'. auto.
Qed.

End Loop.

(** ** The whole run without I/O failures *)

Section Run.

(** The values flushed on [data]. *)
Lemma render_concat (vs : list Z) :
  render "" vs = String.concat ", " (map word vs).
Proof.
  assert (H : forall c v vs, render c (v :: vs) = c ++ String.concat ", " (map word (v :: vs))).
  { intros c v vs0. revert c v.
    induction vs0 as [|v' vs0 IH]; intros c v.
    - cbn. now rewrite str_app_nil_r.
    - cbn [render] in *. rewrite IH. reflexivity. }
  destruct vs as [|v vs]; [reflexivity|].
  now rewrite H.
Qed.

(** With both files opened and no failing read or write the script runs
    to its end, leaves the rendered words in [data.txt] and no file open. *)
Lemma main_run (f : faults) (data : list byte) (old : string) :
  open_image_fails f = false ->
  read_fails f = false ->
  open_txt_fails f = false ->
  (forall k, write_fails f k = false) ->
  exists w',
    main (boot f data old) = (Ok tt, w')
    /\ data_txt w' = render "" (pack 0 0 (mask data 0 (Z.to_nat (numPixels data))))
    /\ open_files w' = [].
Proof.
  intros Hoi Hrd Hot Hwr.
  unfold main, boot. unfold bind at 1. unfold open_rb. cbn [plan]. rewrite Hoi.
  unfold bind at 1. unfold read, is_open, set_open.
  cbn [open_files existsb handle_eqb negb orb plan image_data]. rewrite Hrd.
  unfold bind at 1. unfold close at 1. unfold set_open.
  cbn [open_files filter handle_eqb negb image_data data_txt writes plan].
  unfold bind at 1. unfold open_w at 1.
  cbn [plan image_data data_txt open_files writes]. rewrite Hot.
  cbv zeta. unfold bind at 1.
  match goal with |- context [for_in _ _ _ ?w0] =>
    destruct (loop_run data (Z.to_nat (numPixels data)) 0%nat init w0)
      as (l' & w' & Hrun & Htxt & Hof & _);
      [lia | cbn; lia | reflexivity | exact Hwr |]
  end.
  unfold range. rewrite Hrun.
  eexists. split; [reflexivity|].
  unfold close, set_open. cbn [data_txt open_files].
  rewrite Htxt, Hof. cbn. split; reflexivity.
Qed.

Lemma tohex_render (data : list byte) :
  tohex data = render "" (flushed data).
Proof.
  unfold tohex.
  destruct (main_run quiet data "") as (w' & Hrun & Htxt & _); try reflexivity.
  now rewrite Hrun.
Qed.

Lemma flushed_bounds (data : list byte) :
  Forall (fun x => 0 <= x < 2 ^ 64) (flushed data).
Proof.
  apply pack_bounds; [apply mask_bitval | lia | apply low_zero].
Qed.

Lemma flushed_words (data : list byte) :
  Forall (fun w => is_word w = true) (map word (flushed data)).
Proof.
  apply Forall_map. eapply Forall_impl; [|apply flushed_bounds].
  intros v Hv. now apply word_is_word.
Qed.

Lemma tohex_concat (data : list byte) :
  tohex data = String.concat ", " (map word (flushed data)).
Proof. now rewrite tohex_render, render_concat. Qed.

(** The words read back from the text are the flushed values as written. *)
Lemma words_of_tohex (data : list byte) :
  words_of (tohex data) = map word (flushed data).
Proof. rewrite tohex_concat. apply words_of_concat, flushed_words. Qed.

Lemma flushed_length (data : list byte) :
  Z.of_nat (List.length (flushed data)) = ceil64 (numPixels data).
Proof.
  unfold flushed. rewrite pack_length by (auto; lia).
  unfold mask, ceil64. rewrite length_map, length_seq.
  rewrite Z2Nat.id by apply numPixels_nonneg. f_equal.
Qed.

Lemma mask_nth (data : list byte) (n q : nat) :
  nth q (mask data 0 n) 0 = if (q <? n)%nat then red_bit data q else 0.
Proof.
  unfold mask. destruct (Nat.ltb_spec q n) as [Hq|Hq].
  - rewrite nth_indep with (d' := red_bit data 0%nat) by (now rewrite length_map, length_seq).
    rewrite map_nth, seq_nth by assumption. reflexivity.
  - apply nth_overflow. now rewrite length_map, length_seq.
Qed.

(** Bit [q mod 64] of flushed value [q / 64] is the value of pixel [q],
    and 0 past the last pixel. *)
Lemma flushed_testbit (data : list byte) (q : Z) :
  0 <= q ->
  Z.testbit (nth (Z.to_nat (q / 64)) (flushed data) 0) (q mod 64) =
    if q <? numPixels data then red_bit data (Z.to_nat q) =? 1 else false.
Proof.
  intros Hq. unfold flushed.
  rewrite pack_testbit by (auto using mask_bitval, low_zero; lia).
  destruct (Z.ltb_spec q 0); [lia|].
  rewrite Z.sub_0_r, mask_nth.
  destruct (Nat.ltb_spec (Z.to_nat q) (Z.to_nat (numPixels data))),
           (Z.ltb_spec q (numPixels data)); reflexivity || lia.
Qed.

Lemma byte_is_255 (b : byte) : (Z.of_N (Byte.to_N b) =? 255) = true <-> b = xff.
Proof. destruct b; vm_compute; split; congruence. Qed.

Lemma red_bit_full (data : list byte) (i : nat) :
  (red_bit data i =? 1) = true <-> nth_error data (3 * i) = Some xff.
Proof.
  unfold red_bit. destruct (nth_error data (3 * i)) as [b|].
  - pose proof (byte_is_255 b) as Hb.
    destruct (Z.of_N (Byte.to_N b) =? 255); cbn.
    + split; [intros _; f_equal; now apply Hb | reflexivity].
    + split; [discriminate|]. intros [= ->]. now apply Hb.
  - cbn. split; discriminate.
Qed.

(** The text depends on the input only through the pixel count and the
    values ORed in. *)
Lemma tohex_ext (d1 d2 : list byte) :
  numPixels d1 = numPixels d2 ->
  (forall i, (i < Z.to_nat (numPixels d1))%nat -> red_bit d1 i = red_bit d2 i) ->
  tohex d1 = tohex d2.
Proof.
  intros Hp Hbits. rewrite !tohex_render. unfold flushed. rewrite <- Hp.
  do 2 f_equal. unfold mask. apply map_ext_in.
  intros i Hi. apply in_seq in Hi. apply Hbits. lia.
Qed.

End Run.

(** ** The testable properties *)

Section Properties.

Lemma flushed_nth_error (data : list byte) (k : Z) :
  0 <= k < ceil64 (numPixels data) ->
  exists v,
    nth_error (words_of (tohex data)) (Z.to_nat k) = Some (word v)
    /\ nth (Z.to_nat k) (flushed data) 0 = v
    /\ word_value (word v) = Some v.
Proof.
  intros Hk. rewrite <- flushed_length in Hk.
  exists (nth (Z.to_nat k) (flushed data) 0).
  assert (Hlt : (Z.to_nat k < List.length (flushed data))%nat) by lia.
  repeat split.
  - rewrite words_of_tohex. rewrite nth_error_map.
    rewrite (nth_error_nth' _ 0 Hlt). reflexivity.
  - apply word_value_word.
    pose proof (flushed_bounds data) as Hb. rewrite Forall_forall in Hb.
    apply Hb. now apply nth_In.
Qed.

Lemma words_of_length (data : list byte) :
  Z.of_nat (List.length (words_of (tohex data))) = ceil64 (numPixels data).
Proof. rewrite words_of_tohex, length_map. apply flushed_length. Qed.

Lemma words_of_shape (data : list byte) :
  Forall word_shape (words_of (tohex data)).
Proof.
  rewrite words_of_tohex.
  eapply Forall_impl; [|apply flushed_words].
  intros w Hw. now apply is_word_shape.
Qed.

(** C1: for every pixel [i] of the input, bit [i mod 64] of word [i / 64]
    of the output is 1 exactly when the byte at offset [3 * i] is 255; bit 0
    is the least significant bit of the number the word denotes. *)
Theorem red_channel_bit_in_word (data : list byte) (i : Z) :
  0 <= i < numPixels data ->
  exists w v,
    nth_error (words_of (tohex data)) (Z.to_nat (i / 64)) = Some w
    /\ word_value w = Some v
    /\ (Z.testbit v (i mod 64) = true <-> nth_error data (Z.to_nat (3 * i)) = Some xff).
Proof.
  intros Hi.
  destruct (flushed_nth_error data (i / 64)) as (v & Hw & Hv & Hval).
  { unfold ceil64. Z.div_mod_to_equations. lia. }
  exists (word v), v. repeat split; try assumption.
  - rewrite <- Hv, flushed_testbit by lia.
    destruct (Z.ltb_spec i (numPixels data)); [|lia].
    rewrite red_bit_full. now replace (3 * Z.to_nat i)%nat with (Z.to_nat (3 * i)) by lia.
  - rewrite <- Hv, flushed_testbit by lia.
    destruct (Z.ltb_spec i (numPixels data)); [|lia].
    rewrite red_bit_full. now replace (3 * Z.to_nat i)%nat with (Z.to_nat (3 * i)) by lia.
Qed.

Lemma red_channel_bit_in_word_witness :
  exists w v,
    nth_error (words_of (tohex [x00; x01; x02; xff; x03; x04; xff])) (Z.to_nat (1 / 64)) = Some w
    /\ word_value w = Some v
    /\ (Z.testbit v (1 mod 64) = true
        <-> nth_error [x00; x01; x02; xff; x03; x04; xff] (Z.to_nat (3 * 1)) = Some xff).
Proof.
  apply (red_channel_bit_in_word [x00; x01; x02; xff; x03; x04; xff] 1).
  vm_compute. split; [discriminate | reflexivity].
Defined.

(** C2: the number of words of the output is the pixel count divided by 64
    and rounded up, the pixel count being the length divided by 3 and
    rounded down; the empty input gives no word and the empty text. *)
Theorem word_count (data : list byte) :
  numPixels data = Z.of_nat (List.length data) / 3
  /\ Z.of_nat (List.length (words_of (tohex data))) = ceil64 (numPixels data)
  /\ words_of (tohex []) = []
  /\ tohex [] = "".
Proof.
  repeat split. apply words_of_length.
Qed.

(** C4: every word of the output is [0x] followed by exactly sixteen
    characters of [0-9A-F], however many pixels went into it. *)
Theorem words_are_16_hex_digits (data : list byte) :
  Forall word_shape (words_of (tohex data)).
Proof. apply words_of_shape. Qed.

(** C6: the output text is its words joined by a comma and a space, each
    word of the [0x] shape, so that nothing stands before the first word or
    after the last one. *)
Theorem text_is_words_joined (data : list byte) :
  tohex data = String.concat ", " (words_of (tohex data))
  /\ Forall word_shape (words_of (tohex data)).
Proof.
  split.
  - rewrite words_of_tohex. apply tohex_concat.
  - apply words_of_shape.
Qed.

(** The input cut after its last complete triplet. *)
Lemma tohex_firstn (data : list byte) :
  tohex (firstn (3 * (List.length data / 3)) data) = tohex data.
Proof.
  set (k := (3 * (List.length data / 3))%nat).
  assert (Hk : (k <= List.length data)%nat)
    by (apply Nat.Div0.mul_div_le).
  assert (Hp : numPixels (firstn k data) = numPixels data).
  { unfold numPixels. rewrite length_firstn, Nat.min_l by assumption.
    unfold k. rewrite Nat2Z.inj_mul, Nat2Z.inj_div.
    change (Z.of_nat 3) with 3.
    rewrite Z.mul_comm, Z.div_mul by lia. reflexivity. }
  apply tohex_ext; [assumption|].
  intros i Hi. rewrite Hp, numPixels_nat in Hi.
  unfold red_bit. rewrite nth_error_firstn.
  destruct (Nat.ltb_spec (3 * i) k) as [_|Hge]; [reflexivity|].
  unfold k in Hge. lia.
Qed.

(** C3: the pixel count is the length divided by 3, rounded down; the run
    raises nothing whatever the length is, and the 0, 1 or 2 bytes after the
    last complete triplet do not reach the output: the text is that of the
    input cut after the last complete triplet. *)
Theorem trailing_bytes_ignored (data : list byte) :
  numPixels data = Z.of_nat (List.length data) / 3
  /\ fst (main (boot quiet data "")) = Ok tt
  /\ tohex data = tohex (firstn (3 * (List.length data / 3)) data).
Proof.
  split; [reflexivity|]. split.
  - destruct (main_run quiet data "") as (w' & Hrun & _); try reflexivity.
    now rewrite Hrun.
  - symmetry. apply tohex_firstn.
Qed.

(** C5: when the pixel count is not a multiple of 64 the output has one
    more word than there are full groups of 64 pixels, and in the number
    this last word denotes no bit is set at position [pixels mod 64] or
    above; 65 pixels of which only the first is red give the two words
    [0x0000000000000001] and [0x0000000000000000]. *)
Theorem final_partial_word :
  (forall data : list byte,
      numPixels data mod 64 <> 0 ->
      exists w v,
        Z.of_nat (List.length (words_of (tohex data))) = numPixels data / 64 + 1
        /\ nth_error (words_of (tohex data)) (Z.to_nat (numPixels data / 64)) = Some w
        /\ word_shape w
        /\ word_value w = Some v
        /\ forall j, numPixels data mod 64 <= j -> Z.testbit v j = false)
  /\ tohex (xff :: repeat x00 194) = "0x0000000000000001, 0x0000000000000000".
Proof.
  split; [|vm_compute; reflexivity].
  intros data Hpart.
  pose proof (numPixels_nonneg data) as Hn.
  assert (Hceil : ceil64 (numPixels data) = numPixels data / 64 + 1).
  { unfold ceil64. Z.div_mod_to_equations. lia. }
  destruct (flushed_nth_error data (numPixels data / 64)) as (v & Hw & Hv & Hval).
  { rewrite Hceil. Z.div_mod_to_equations. lia. }
  exists (word v), v. repeat split; try assumption.
  - now rewrite words_of_length.
  - pose proof (words_of_shape data) as Hs. rewrite Forall_forall in Hs.
    apply Hs. eapply nth_error_In. exact Hw.
  - intros j Hj.
    destruct (Z.lt_ge_cases j 64) as [Hlt|Hge].
    + assert (Hq : 0 <= 64 * (numPixels data / 64) + j)
        by (Z.div_mod_to_equations; lia).
      pose proof (flushed_testbit data _ Hq) as Hbit.
      replace ((64 * (numPixels data / 64) + j) / 64) with (numPixels data / 64) in Hbit
        by (Z.div_mod_to_equations; lia).
      replace ((64 * (numPixels data / 64) + j) mod 64) with j in Hbit
        by (Z.div_mod_to_equations; lia).
      rewrite Hv in Hbit. rewrite Hbit.
      destruct (Z.ltb_spec (64 * (numPixels data / 64) + j) (numPixels data)) as [Hin|_];
        [|reflexivity].
      exfalso. Z.div_mod_to_equations. lia.
    + assert (Hb : 0 <= v < 2 ^ 64).
      { pose proof (flushed_bounds data) as Hb. rewrite Forall_forall in Hb.
        apply Hb. rewrite <- Hv. apply nth_In.
        pose proof (flushed_length data) as Hlen. rewrite Hceil in Hlen.
        assert (0 <= numPixels data / 64) by (apply Z.div_pos; lia). lia. }
      apply (bound_low 64 v Hb). lia.
Qed.

Lemma final_partial_word_witness :
  exists w v,
    Z.of_nat (List.length (words_of (tohex [xff; x00; x00; x00; x00; x00])))
      = numPixels [xff; x00; x00; x00; x00; x00] / 64 + 1
    /\ nth_error (words_of (tohex [xff; x00; x00; x00; x00; x00]))
         (Z.to_nat (numPixels [xff; x00; x00; x00; x00; x00] / 64)) = Some w
    /\ word_shape w
    /\ word_value w = Some v
    /\ forall j, numPixels [xff; x00; x00; x00; x00; x00] mod 64 <= j -> Z.testbit v j = false.
Proof.
  apply (proj1 final_partial_word [xff; x00; x00; x00; x00; x00]).
  vm_compute. discriminate.
Defined.

(** C8: two runs on the same input bytes, whatever [data.txt] held before
    each of them, both end normally and leave the same text. *)
Theorem same_input_same_text (data : list byte) (old1 old2 : string) :
  fst (main (boot quiet data old1)) = Ok tt
  /\ fst (main (boot quiet data old2)) = Ok tt
  /\ data_txt (snd (main (boot quiet data old1)))
     = data_txt (snd (main (boot quiet data old2))).
Proof.
  destruct (main_run quiet data old1) as (w1 & Hrun1 & Htxt1 & _); try reflexivity.
  destruct (main_run quiet data old2) as (w2 & Hrun2 & Htxt2 & _); try reflexivity.
  rewrite Hrun1, Hrun2. cbn [fst snd].
  repeat split. congruence.
Qed.

(** C9: two inputs of the same length whose pixels agree on whether the
    byte at offset [3 * i] is 255 give the same text; the other bytes (the
    green and blue channels, the bytes after the last triplet) do not
    matter. *)
Theorem text_depends_on_red_255_only (d1 d2 : list byte) :
  List.length d1 = List.length d2 ->
  (forall i, 0 <= i < numPixels d1 ->
     (nth_error d1 (Z.to_nat (3 * i)) = Some xff
      <-> nth_error d2 (Z.to_nat (3 * i)) = Some xff)) ->
  tohex d1 = tohex d2.
Proof.
  intros Hlen Hred.
  apply tohex_ext; [unfold numPixels; now rewrite Hlen|].
  intros i Hi.
  specialize (Hred (Z.of_nat i) ltac:(lia)).
  replace (Z.to_nat (3 * Z.of_nat i)) with (3 * i)%nat in Hred by lia.
  rewrite <- !red_bit_full in Hred.
  destruct (red_bit_bitval d1 i) as [H1|H1], (red_bit_bitval d2 i) as [H2|H2];
    rewrite H1, H2 in *; try reflexivity; cbn in Hred.
  - destruct Hred as [_ H]. discriminate (H eq_refl).
  - destruct Hred as [H _]. discriminate (H eq_refl).
Qed.

Lemma text_depends_on_red_255_only_witness :
  tohex [xff; x01; x02; x00; x03; x04; x09] = tohex [xff; x07; x08; x05; x05; x06; x01].
Proof.
  apply (text_depends_on_red_255_only
           [xff; x01; x02; x00; x03; x04; x09] [xff; x07; x08; x05; x05; x06; x01]).
  - reflexivity.
  - intros i Hi. change (0 <= i < 2) in Hi.
    assert (Hcases : i = 0 \/ i = 1) by lia.
    destruct Hcases as [-> | ->]; vm_compute; split; intros H;
      solve [reflexivity | discriminate H].
Defined.

(** C7, as the script has it: a failed read leaves the input file open, a
    failed write leaves the output file open. *)
Lemma failed_read_or_write_leaves_file_open :
  main (boot read_fault [xff; x00; x00] "")
    = (Raise OSError, {| image_data := [xff; x00; x00]; data_txt := "";
                         open_files := [RawImage]; writes := 0; plan := read_fault |})
  /\ open_files (snd (main (boot read_fault [xff; x00; x00] ""))) <> []
  /\ fst (main (boot write_fault [xff; x00; x00] "")) = Raise OSError
  /\ open_files (snd (main (boot write_fault [xff; x00; x00] ""))) = [HexList].
Proof. repeat split. discriminate. Qed.

(** C7, amended: on every exit path on which neither the read nor a write
    fails (the normal end, and a failed open of either file) no file is left
    open. *)
Theorem files_closed_unless_read_or_write_fails
    (f : faults) (data : list byte) (old : string) :
  read_fails f = false ->
  (forall k, write_fails f k = false) ->
  open_files (snd (main (boot f data old))) = [].
Proof.
  intros Hrd Hwr.
  destruct (open_image_fails f) eqn:Hoi.
  - unfold main, boot, bind, open_rb. cbn [plan]. now rewrite Hoi.
  - destruct (open_txt_fails f) eqn:Hot.
    + unfold main, boot. unfold bind at 1. unfold open_rb. cbn [plan]. rewrite Hoi.
      unfold bind at 1. unfold read, is_open, set_open.
      cbn [open_files existsb handle_eqb negb orb plan image_data]. rewrite Hrd.
      unfold bind at 1. unfold close at 1. unfold set_open.
      cbn [open_files filter handle_eqb negb image_data data_txt writes plan].
      unfold bind at 1. unfold open_w at 1. cbn [plan]. now rewrite Hot.
    + destruct (main_run f data old Hoi Hrd Hot Hwr) as (w' & Hrun & _ & Hof).
      now rewrite Hrun.
Qed.

Lemma files_closed_unless_read_or_write_fails_witness :
  open_files (snd (main (boot create_fault [xff; x00; x00] "old"))) = [].
Proof.
  apply (files_closed_unless_read_or_write_fails create_fault [xff; x00; x00] "old").
  - reflexivity.
  - intros k. reflexivity.
Defined.

(** C10: at the top of every iteration [k] of the loop (and after the last
    one) [0 <= numBits <= 63] and [0 <= bits < 2^numBits]; hence a 0 or 1
    shifted by [numBits], and its OR with [bits], stay below [2^64] and the
    result prints as sixteen digits; and the iteration that flushes ends
    with [bits = 0] and [numBits = 0]. *)
Theorem accumulator_invariant (data : list byte) (k : Z) (w : world) :
  0 <= k <= numPixels data ->
  is_open HexList w = true ->
  (forall j, write_fails (plan w) j = false) ->
  exists l w',
    at_top data k w = (Ok l, w')
    /\ 0 <= numBits l <= 63
    /\ 0 <= bits l < 2 ^ numBits l
    /\ bits l < 2 ^ 64
    /\ (forall v, v = 0 \/ v = 1 ->
          0 <= Z.shiftl v (numBits l) < 2 ^ 64
          /\ 0 <= Z.lor (bits l) (Z.shiftl v (numBits l)) < 2 ^ 64
          /\ String.length (format_016X (Z.lor (bits l) (Z.shiftl v (numBits l)))) = 16%nat)
    /\ (k < numPixels data ->
        exists l1 w1,
          body HexList data (numPixels data) k l w' = (Ok l1, w1)
          /\ ((numBits l + 1 =? 64) || (k =? numPixels data - 1) = true ->
              numBits l1 = 0 /\ bits l1 = 0)).
Proof.
  intros Hk Hopen Hq.
  destruct (loop_inv data (Z.to_nat k) 0%nat init w)
    as (l & w' & Hrun & Hnb & Hlow & Hopen' & Hpl);
    [lia | cbn; lia | apply low_zero | assumption | assumption |].
  exists l, w'.
  assert (Hb : 0 <= bits l < 2 ^ numBits l) by (apply low_bound; [lia | assumption]).
  assert (Hor : forall v, v = 0 \/ v = 1 ->
                 0 <= Z.lor (bits l) (Z.shiftl v (numBits l)) < 2 ^ 64).
  { intros v Hv. apply low_bound; [lia|].
    apply low_mono with (numBits l + 1); [lia|].
    apply low_or_shift; [lia | exact Hv | assumption]. }
  split; [exact Hrun|]. split; [exact Hnb|]. split; [exact Hb|]. split.
  { apply Z.lt_le_trans with (2 ^ numBits l); [apply Hb|].
    apply Z.pow_le_mono_r; lia. }
  split.
  - intros v Hv. split; [|split; [now apply Hor|]].
    + rewrite Z.shiftl_mul_pow2 by lia.
      assert (0 < 2 ^ numBits l < 2 ^ 64)
        by (split; [apply Z.pow_pos_nonneg | apply Z.pow_lt_mono_r]; lia).
      destruct Hv as [-> | ->]; lia.
    + now apply format_016X_word, Hor.
  - intros Hlt.
    pose proof (body_step data (Z.to_nat k) l w') as Hstep.
    rewrite Z2Nat.id in Hstep by lia.
    rewrite Hstep; [| lia | lia | assumption | rewrite Hpl; apply Hq].
    unfold flush_due. rewrite Z2Nat.id by lia.
    destruct ((numBits l + 1 =? 64) || (k =? numPixels data - 1)).
    + eexists _, _. split; [reflexivity|]. intros _. split; reflexivity.
    + eexists _, _. split; [reflexivity|]. discriminate.
Qed.

Lemma accumulator_invariant_witness :
  exists l w',
    at_top [xff; x00; x00; x00; x00; x00] 1 (at_loop [xff; x00; x00; x00; x00; x00])
      = (Ok l, w')
    /\ 0 <= numBits l <= 63
    /\ 0 <= bits l < 2 ^ numBits l
    /\ bits l < 2 ^ 64
    /\ (forall v, v = 0 \/ v = 1 ->
          0 <= Z.shiftl v (numBits l) < 2 ^ 64
          /\ 0 <= Z.lor (bits l) (Z.shiftl v (numBits l)) < 2 ^ 64
          /\ String.length (format_016X (Z.lor (bits l) (Z.shiftl v (numBits l)))) = 16%nat)
    /\ (1 < numPixels [xff; x00; x00; x00; x00; x00] ->
        exists l1 w1,
          body HexList [xff; x00; x00; x00; x00; x00]
               (numPixels [xff; x00; x00; x00; x00; x00]) 1 l w' = (Ok l1, w1)
          /\ ((numBits l + 1 =? 64) || (1 =? numPixels [xff; x00; x00; x00; x00; x00] - 1) = true ->
              numBits l1 = 0 /\ bits l1 = 0)).
Proof.
  apply (accumulator_invariant [xff; x00; x00; x00; x00; x00] 1
           (at_loop [xff; x00; x00; x00; x00; x00])).
  - vm_compute. split; discriminate.
  - reflexivity.
  - intros j. reflexivity.
Defined.

End Properties.

(** ** Runs with failing operations *)

Section Failures.

Variable data : list byte.

Local Abbreviation N := (numPixels data).

Ltac loop_tail IH a pat :=
  match goal with
  | |- context [for_in _ _ ?l1 ?w1] => destruct (IH (S a) l1 w1) as pat
  end.

(** One iteration under any failure plan: only the write can raise. *)
Lemma body_step_any (i : nat) (l : locals) (w : world) :
  (i < Z.to_nat N)%nat ->
  0 <= numBits l ->
  is_open HexList w = true ->
  body HexList data N (Z.of_nat i) l w =
    if flush_due N i l then
      if write_fails (plan w) (writes w) then
        (Raise OSError,
         {| image_data := image_data w; data_txt := data_txt w;
            open_files := open_files w; writes := S (writes w); plan := plan w |})
      else
        (Ok {| comma := ", "; numBits := 0; bits := 0 |},
         {| image_data := image_data w;
            data_txt := data_txt w ++ comma l ++ word (bits_after data i l);
            open_files := open_files w; writes := S (writes w); plan := plan w |})
    else
      (Ok {| comma := comma l; numBits := numBits l + 1;
             bits := bits_after data i l |}, w).
Proof.
  intros Hi Hnb Hopen.
  destruct (index_pixel data i w Hi) as (b & Hb & Hidx).
  unfold body, bind. rewrite Hidx.
  unfold lshift. destruct (Z.ltb_spec (numBits l) 0) as [Hneg|_]; [lia|].
  unfold ret, flush_due, bits_after, red_bit. rewrite Hb.
  destruct ((numBits l + 1 =? 64) || (Z.of_nat i =? N - 1)); [|reflexivity].
  unfold write. rewrite Hopen. cbn [negb].
  destruct (write_fails (plan w) (writes w)); reflexivity.
Qed.

(** Whatever fails, the loop ends normally or with the [OSError] of a
    write, and opens or closes nothing. *)
Lemma loop_frame (m : nat) :
  forall (a : nat) (l : locals) (w : world),
    (a + m <= Z.to_nat N)%nat ->
    0 <= numBits l ->
    is_open HexList w = true ->
    exists r w',
      for_in (map Z.of_nat (seq a m)) (body HexList data N) l w = (r, w')
      /\ open_files w' = open_files w
      /\ plan w' = plan w
      /\ ((exists l', r = Ok l')
          \/ (r = Raise OSError /\ exists k, write_fails (plan w) k = true)).
Proof.
  induction m as [|m IH]; intros a l w Ham Hnb Hopen.
  - exists (Ok l), w. cbn. repeat split. left. now exists l.
  - cbn [seq map for_in]. unfold bind at 1.
    rewrite body_step_any by (auto; lia).
    destruct (flush_due N a l) eqn:Hflush.
    + destruct (write_fails (plan w) (writes w)) eqn:Hfail.
      * eexists _, _. split; [reflexivity|]. cbn. repeat split.
        right. split; [reflexivity|]. now exists (writes w).
      * loop_tail IH a ipattern:((r & w' & Hrun & Hof & Hpl & Hr));
          [lia | cbn; lia | exact Hopen |].
        exists r, w'. cbn in Hof, Hpl, Hr. auto.
    + apply orb_false_iff in Hflush. destruct Hflush as [Hne _].
      loop_tail IH a ipattern:((r & w' & Hrun & Hof & Hpl & Hr));
        [lia | cbn; lia | exact Hopen |].
      exists r, w'. auto.
Qed.


End Failures.

(** ** Further properties of the script *)

Section Further.

(** Up to the loop: with both opens and the read succeeding the script
    enters the loop with the input closed and an empty [data.txt] open. *)
Lemma main_enters_loop (f : faults) (data : list byte) (old : string) :
  open_image_fails f = false ->
  read_fails f = false ->
  open_txt_fails f = false ->
  main (boot f data old) =
    (let (r, w1) :=
       for_in (map Z.of_nat (seq 0 (Z.to_nat (numPixels data))))
         (body HexList data (numPixels data)) init
         {| image_data := data; data_txt := ""; open_files := [HexList];
            writes := 0; plan := f |} in
     match r with
     | Ok _ => close HexList w1
     | Raise e => (Raise e, w1)
     end).
Proof.
  intros Hoi Hrd Hot.
  unfold main, boot. unfold bind at 1. unfold open_rb. cbn [plan]. rewrite Hoi.
  unfold bind at 1. unfold read, is_open, set_open.
  cbn [open_files existsb handle_eqb negb orb plan image_data]. rewrite Hrd.
  unfold bind at 1. unfold close at 1. unfold set_open.
  cbn [open_files filter handle_eqb negb image_data data_txt writes plan].
  unfold bind at 1. unfold open_w at 1.
  cbn [plan image_data data_txt open_files writes]. rewrite Hot.
  cbv zeta. unfold bind at 1. reflexivity.
Qed.

(** The ways the script can end, under any failure plan. *)
Lemma main_outcome (f : faults) (data : list byte) (old : string) :
  exists r w',
    main (boot f data old) = (r, w')
    /\ ((r = Ok tt /\ open_files w' = [])
        \/ (r = Raise OSError /\ open_files w' = []
            /\ (open_image_fails f = true \/ open_txt_fails f = true))
        \/ (r = Raise OSError /\ open_files w' = [RawImage] /\ read_fails f = true)
        \/ (r = Raise OSError /\ open_files w' = [HexList]
            /\ exists k, write_fails f k = true)).
Proof.
  destruct (open_image_fails f) eqn:Hoi.
  { eexists _, _. split.
    - unfold main, boot, bind, open_rb. cbn [plan]. rewrite Hoi. reflexivity.
    - right. left. cbn. auto. }
  destruct (read_fails f) eqn:Hrd.
  { eexists _, _. split.
    - unfold main, boot. unfold bind at 1. unfold open_rb. cbn [plan]. rewrite Hoi.
      unfold bind at 1. unfold read, is_open, set_open.
      cbn [open_files existsb handle_eqb negb orb plan image_data]. rewrite Hrd.
      reflexivity.
    - right. right. left. cbn. auto. }
  destruct (open_txt_fails f) eqn:Hot.
  { eexists _, _. split.
    - unfold main, boot. unfold bind at 1. unfold open_rb. cbn [plan]. rewrite Hoi.
      unfold bind at 1. unfold read, is_open, set_open.
      cbn [open_files existsb handle_eqb negb orb plan image_data]. rewrite Hrd.
      unfold bind at 1. unfold close at 1. unfold set_open.
      cbn [open_files filter handle_eqb negb image_data data_txt writes plan].
      unfold bind at 1. unfold open_w at 1. cbn [plan]. rewrite Hot. reflexivity.
    - right. left. cbn. auto. }
  rewrite main_enters_loop by assumption.
  match goal with |- context [for_in _ _ _ ?w0] =>
    destruct (loop_frame data (Z.to_nat (numPixels data)) 0%nat init w0)
      as (r & w1 & Hrun & Hof & Hpl & Hr); [lia | cbn; lia | reflexivity |]
  end.
  rewrite Hrun. cbn [open_files plan] in Hof, Hr.
  destruct Hr as [[l' ->] | [-> Hk]].
  - eexists _, _. split; [reflexivity|]. left. split; [reflexivity|].
    unfold set_open. cbn [open_files]. rewrite Hof. reflexivity.
  - eexists _, _. split; [reflexivity|]. right. right. right. auto.
Qed.

(** X1: whatever operations fail and whatever the input holds, the script
    ends normally or with [OSError]; it never raises [IndexError] (the
    subscript [3 * i] is always in range) nor [ValueError]. *)
Theorem only_oserror_escapes (f : faults) (data : list byte) (old : string) :
  fst (main (boot f data old)) = Ok tt
  \/ fst (main (boot f data old)) = Raise OSError.
Proof.
  destruct (main_outcome f data old) as (r & w' & Hrun & Hcases).
  rewrite Hrun. cbn [fst].
  destruct Hcases as [[-> _] | [[-> _] | [[-> _] | [-> _]]]]; auto.
Qed.

(** X2: under any failure plan at most one file is left open when the
    script ends: none, or the input after a failed read, or the output
    after a failed write; the two files are never open together. *)
Theorem at_most_one_file_left_open (f : faults) (data : list byte) (old : string) :
  open_files (snd (main (boot f data old))) = []
  \/ (open_files (snd (main (boot f data old))) = [RawImage]
      /\ read_fails f = true)
  \/ (open_files (snd (main (boot f data old))) = [HexList]
      /\ exists k, write_fails f k = true).
Proof.
  destruct (main_outcome f data old) as (r & w' & Hrun & Hcases).
  rewrite Hrun. cbn [snd].
  destruct Hcases as [[_ H] | [(_ & H & _) | [(_ & H & Hf) | (_ & H & Hf)]]]; auto.
Qed.

Lemma main_early_failure (f : faults) (data : list byte) (old : string) :
  open_image_fails f = true \/ read_fails f = true \/ open_txt_fails f = true ->
  exists w', main (boot f data old) = (Raise OSError, w') /\ data_txt w' = old.
Proof.
  intros Hfail.
  destruct (open_image_fails f) eqn:Hoi.
  { eexists. split.
    - unfold main, boot, bind, open_rb. cbn [plan]. rewrite Hoi. reflexivity.
    - reflexivity. }
  destruct (read_fails f) eqn:Hrd.
  { eexists. split.
    - unfold main, boot. unfold bind at 1. unfold open_rb. cbn [plan]. rewrite Hoi.
      unfold bind at 1. unfold read, is_open, set_open.
      cbn [open_files existsb handle_eqb negb orb plan image_data]. rewrite Hrd.
      reflexivity.
    - reflexivity. }
  destruct (open_txt_fails f) eqn:Hot.
  { eexists. split.
    - unfold main, boot. unfold bind at 1. unfold open_rb. cbn [plan]. rewrite Hoi.
      unfold bind at 1. unfold read, is_open, set_open.
      cbn [open_files existsb handle_eqb negb orb plan image_data]. rewrite Hrd.
      unfold bind at 1. unfold close at 1. unfold set_open.
      cbn [open_files filter handle_eqb negb image_data data_txt writes plan].
      unfold bind at 1. unfold open_w at 1. cbn [plan]. rewrite Hot. reflexivity.
    - reflexivity. }
  destruct Hfail as [H | [H | H]]; discriminate H.
Qed.

(** X3: when the input cannot be opened or read, or the output cannot be
    created, the script raises [OSError] and [data.txt] keeps what it
    held. *)
Theorem failure_before_loop_keeps_old_text
    (f : faults) (data : list byte) (old : string) :
  open_image_fails f = true \/ read_fails f = true \/ open_txt_fails f = true ->
  fst (main (boot f data old)) = Raise OSError
  /\ data_txt (snd (main (boot f data old))) = old.
Proof.
  intros Hfail.
  destruct (main_early_failure f data old Hfail) as (w' & Hrun & Htxt).
  rewrite Hrun. split; [reflexivity | exact Htxt].
Qed.

Lemma failure_before_loop_keeps_old_text_witness :
  fst (main (boot read_fault [xff; x00; x00] "0x0000000000000000")) = Raise OSError
  /\ data_txt (snd (main (boot read_fault [xff; x00; x00] "0x0000000000000000")))
     = "0x0000000000000000".
Proof.
  apply (failure_before_loop_keeps_old_text read_fault [xff; x00; x00]
           "0x0000000000000000").
  right. left. reflexivity.
Defined.



Lemma word_inj (v1 v2 : Z) :
  0 <= v1 < 2 ^ 64 -> 0 <= v2 < 2 ^ 64 -> word v1 = word v2 -> v1 = v2.
Proof.
  intros H1 H2 Heq.
  pose proof (word_value_word v1 H1) as E1.
  pose proof (word_value_word v2 H2) as E2.
  rewrite Heq in E1. congruence.
Qed.

Lemma map_word_inj (l1 : list Z) :
  forall l2,
    Forall (fun x => 0 <= x < 2 ^ 64) l1 ->
    Forall (fun x => 0 <= x < 2 ^ 64) l2 ->
    map word l1 = map word l2 -> l1 = l2.
Proof.
  induction l1 as [|v1 l1 IH]; intros [|v2 l2] B1 B2 W; try discriminate;
    [reflexivity|].
  cbn [map] in W.
  assert (Hw : word v1 = word v2) by congruence.
  assert (Hrest : map word l1 = map word l2) by congruence.
  apply Forall_cons_iff in B1. apply Forall_cons_iff in B2.
  destruct B1 as [Hv1 B1], B2 as [Hv2 B2].
  f_equal; [now apply word_inj | now apply IH].
Qed.

(** X5: the text determines the red pattern: two inputs with the same text
    agree, at every pixel both have, on whether the byte at offset [3 * i]
    is 255. *)
Theorem same_text_same_red_pattern (d1 d2 : list byte) (i : Z) :
  tohex d1 = tohex d2 ->
  0 <= i < numPixels d1 ->
  i < numPixels d2 ->
  (nth_error d1 (Z.to_nat (3 * i)) = Some xff
   <-> nth_error d2 (Z.to_nat (3 * i)) = Some xff).
Proof.
  intros Htxt Hi1 Hi2.
  assert (Hfl : flushed d1 = flushed d2).
  { apply map_word_inj; try apply flushed_bounds.
    now rewrite <- !words_of_tohex, Htxt. }
  pose proof (flushed_testbit d1 i ltac:(lia)) as T1.
  pose proof (flushed_testbit d2 i ltac:(lia)) as T2.
  rewrite Hfl in T1. rewrite T1 in T2.
  destruct (Z.ltb_spec i (numPixels d1)); [|lia].
  destruct (Z.ltb_spec i (numPixels d2)); [|lia].
  replace (Z.to_nat (3 * i)) with (3 * Z.to_nat i)%nat by lia.
  rewrite <- !red_bit_full. now rewrite T2.
Qed.

Lemma same_text_same_red_pattern_witness :
  nth_error [xff; x01; x02; x00; x00; x00] (Z.to_nat (3 * 0)) = Some xff
  <-> nth_error [xff; x07; x08; x09; x0a; x0b; x0c] (Z.to_nat (3 * 0)) = Some xff.
Proof.
  apply (same_text_same_red_pattern
           [xff; x01; x02; x00; x00; x00] [xff; x07; x08; x09; x0a; x0b; x0c] 0).
  - vm_compute. reflexivity.
  - vm_compute. split; [discriminate | reflexivity].
  - vm_compute. reflexivity.
Defined.

Lemma is_word_length (w : string) :
  is_word w = true -> String.length w = 18%nat.
Proof.
  intros H. destruct (is_word_shape w H) as (h & -> & Hl & _).
  cbn. now rewrite Hl.
Qed.

Lemma concat_words_length (ws : list string) :
  Forall (fun w => is_word w = true) ws ->
  Z.of_nat (String.length (String.concat ", " ws)) =
    match ws with
    | [] => 0
    | _ => 20 * Z.of_nat (List.length ws) - 2
    end.
Proof.
  induction 1 as [|w ws Hw Hws IH]; [reflexivity|].
  apply is_word_length in Hw.
  destruct ws as [|w' ws].
  - cbn [String.concat List.length]. rewrite Hw. reflexivity.
  - change (String.concat ", " (w :: w' :: ws))
      with (w ++ ", " ++ String.concat ", " (w' :: ws)).
    rewrite !str_length_app, Hw. cbn [String.length].
    rewrite !Nat2Z.inj_add, IH. cbn [List.length]. lia.
Qed.

(** X6: the size of the output: nothing for an input without a complete
    pixel, otherwise 18 characters for each of the [ceil (numPixels / 64)]
    words and 2 for each separator between them. *)
Theorem text_length (data : list byte) :
  Z.of_nat (String.length (tohex data)) =
    if numPixels data =? 0 then 0 else 20 * ceil64 (numPixels data) - 2.
Proof.
  rewrite tohex_concat, concat_words_length by apply flushed_words.
  rewrite <- flushed_length.
  pose proof (flushed_length data) as Hlen. unfold ceil64 in Hlen.
  pose proof (numPixels_nonneg data) as Hn.
  destruct (Z.eqb_spec (numPixels data) 0) as [Hz|Hnz].
  - rewrite Hz in Hlen. change ((0 + 63) / 64) with 0 in Hlen.
    destruct (flushed data); [reflexivity | cbn in Hlen; lia].
  - destruct (flushed data) as [|v vs] eqn:Hfl.
    + cbn in Hlen. exfalso. Z.div_mod_to_equations. lia.
    + rewrite length_map. reflexivity.
Qed.

(** Flushing restarts from an empty accumulator at every multiple of 64
    values. *)
Lemma pack_app (vs1 : list Z) :
  forall nb b vs2,
    0 <= nb < 64 ->
    (nb + Z.of_nat (List.length vs1)) mod 64 = 0 ->
    (vs1 = [] -> b = 0) ->
    pack nb b (vs1 ++ vs2)%list = (pack nb b vs1 ++ pack 0 0 vs2)%list.
Proof.
  induction vs1 as [|v vs1 IH]; intros nb b vs2 Hnb Hmod Hnil.
  - cbn [List.length Z.of_nat] in Hmod.
    assert (nb = 0) by (Z.div_mod_to_equations; lia). subst nb.
    now rewrite Hnil.
  - cbn [app]. rewrite !pack_cons.
    cbn [List.length] in Hmod. rewrite Nat2Z.inj_succ in Hmod.
    destruct (Z.eqb_spec (nb + 1) 64) as [H64|H64]; cbn [orb].
    + cbn [app]. f_equal. apply IH; [lia | | reflexivity].
      Z.div_mod_to_equations. lia.
    + destruct vs1 as [|v' vs1].
      * exfalso. cbn [List.length Z.of_nat] in Hmod.
        Z.div_mod_to_equations. lia.
      * cbn [app]. apply IH; [lia | | discriminate].
        rewrite <- Hmod. f_equal. lia.
Qed.

Lemma mask_app_shift (d1 d2 : list byte) (p : nat) :
  List.length d1 = (3 * p)%nat ->
  forall n a,
    map (red_bit (d1 ++ d2)%list) (seq (p + a) n) = map (red_bit d2) (seq a n).
Proof.
  intros Hlen. induction n as [|n IH]; intros a; [reflexivity|].
  cbn [seq map]. f_equal.
  - unfold red_bit. rewrite nth_error_app2 by lia.
    now replace (3 * (p + a) - List.length d1)%nat with (3 * a)%nat by lia.
  - replace (S (p + a)) with (p + S a)%nat by lia. apply IH.
Qed.

Lemma flushed_app (d1 d2 : list byte) (m : nat) :
  List.length d1 = (192 * m)%nat ->
  flushed (d1 ++ d2)%list = (flushed d1 ++ flushed d2)%list.
Proof.
  intros Hlen.
  assert (Hp1 : Z.to_nat (numPixels d1) = (64 * m)%nat).
  { rewrite numPixels_nat, Hlen.
    replace (192 * m)%nat with ((64 * m) * 3)%nat by lia.
    now rewrite Nat.div_mul by lia. }
  assert (Hp : Z.to_nat (numPixels (d1 ++ d2)%list)
               = (64 * m + Z.to_nat (numPixels d2))%nat).
  { rewrite !numPixels_nat, length_app, Hlen.
    replace (192 * m + List.length d2)%nat
      with (List.length d2 + (64 * m) * 3)%nat by lia.
    rewrite Nat.div_add by lia. lia. }
  unfold flushed. rewrite Hp, Hp1.
  assert (Hmask : mask (d1 ++ d2)%list 0 (64 * m + Z.to_nat (numPixels d2))
                  = (mask d1 0 (64 * m) ++ mask d2 0 (Z.to_nat (numPixels d2)))%list).
  { unfold mask. rewrite seq_app, map_app. f_equal.
    - apply map_ext_in. intros i Hi. apply in_seq in Hi.
      unfold red_bit. rewrite nth_error_app1 by lia. reflexivity.
    - replace (0 + 64 * m)%nat with (64 * m + 0)%nat by lia.
      apply mask_app_shift. lia. }
  rewrite Hmask. apply pack_app; [lia | | reflexivity].
  unfold mask. rewrite length_map, length_seq.
  rewrite Nat2Z.inj_mul. change (Z.of_nat 64) with 64.
  rewrite Z.add_0_l, Z.mul_comm. apply Z.mod_mul. lia.
Qed.

(** X7: an input whose first part is a whole number of 64-pixel groups
    (192 bytes each) is packed part by part: the words of the output are the
    words for the first part followed by the words for the rest. *)
Theorem words_of_whole_groups_then_rest (d1 d2 : list byte) (m : nat) :
  List.length d1 = (192 * m)%nat ->
  words_of (tohex (d1 ++ d2)%list) = (words_of (tohex d1) ++ words_of (tohex d2))%list.
Proof.
  intros Hlen.
  rewrite !words_of_tohex, (flushed_app d1 d2 m Hlen).
  apply map_app.
Qed.

Lemma words_of_whole_groups_then_rest_witness :
  words_of (tohex (repeat xff 192 ++ [x00; x00; x00; xff])%list)
  = (words_of (tohex (repeat xff 192)) ++ words_of (tohex [x00; x00; x00; xff]))%list.
Proof.
  apply (words_of_whole_groups_then_rest (repeat xff 192) [x00; x00; x00; xff] 1).
  reflexivity.
Defined.

End Further.
